(** * Nebula read path: RowAccessor, ListAccessor and the Type tree

    A shallow embedding of [nebula::memory::RowAccessor] and
    [nebula::memory::ListAccessor] (the implementation file of Batch.h) and
    of the map constructor of [nebula::type::Type].

    - C++ objects that are mutated through [this] (the row accessor) live in
      a store indexed by addresses; a method is a computation over that store
      that either returns, throws, or has undefined behaviour.
    - Immutable collaborators whose classes are declared in other headers
      (data nodes, the bess pod, the bit slice, the tree base class) are
      records of their methods. *)

From Stdlib Require Import SpecFloat.
From stdpp Require Import gmap strings list fin_maps.

Local Open Scope N_scope.

(** ** Machine words *)

(** [size_t] and [IndexType] are unsigned 64-bit words: sums and products
    wrap around. *)
Definition size_t_max : N := 2 ^ 64.
Definition size_add (a b : N) : N := (a + b) mod size_t_max.
Definition size_mul (a b : N) : N := (a * b) mod size_t_max.

(** ** Value types of the typed readers *)

(** The nine instantiations of READ_TYPE_BY_FIELD / READ_TYPE_BY_ENTRY. *)
Inductive CType : Set :=
| c_bool | c_int8 | c_int16 | c_int32 | c_int64
| c_float | c_double | c_int128 | c_string_view.

Definition cval (T : CType) : Type :=
  match T with
  | c_bool => bool
  | c_int8 | c_int16 | c_int32 | c_int64 | c_int128 => Z
  | c_float | c_double => spec_float
  | c_string_view => string
  end.

(** ** Outcomes of a call *)

Inductive Exception : Set :=
| NException (msg : string)   (* thrown by N_ENSURE / N_ENSURE_EQ *)
| std_out_of_range.           (* thrown by unordered_map::at *)

Inductive Outcome (A : Type) : Type :=
| Ok (a : A)
| Throw (e : Exception)
| Undefined.
Arguments Ok {A} a.
Arguments Throw {A} e.
Arguments Undefined {A}.

(** The two contract violations the accessors report through N_ENSURE. *)
Definition OutOfRange : Exception := NException "row id out of bound".
Definition FieldNotFound (field : string) : Exception :=
  NException ("field " +:+ field +:+ " not found!").

(** [std::unique_ptr<T>]: an owned object or [nullptr]. *)
Inductive unique_ptr (A : Type) : Type :=
| nullptr
| make_unique (a : A).
Arguments nullptr {A}.
Arguments make_unique {A} a.

(** ** Data nodes *)

(** Modelled from the spec: the DataNode class (declared in its own header).
    A node is the capability set the accessors call:
    [isNull(row)], [read<T>(row)], its ordered children ([childAt]) and
    [offsetSize(row)]. *)
#[warnings="-register-all"]
Inductive DataNode : Type := mkDataNode {
  dn_isNull : N → bool;
  dn_read : ∀ T : CType, N → cval T;
  dn_children : list DataNode;
  dn_offsetSize : N → N * N
}.

(** Modelled from the spec: [childAt(i)] is valid only for a node that has an
    [i]-th child; anything else is a contract violation. *)
Definition childAt (node : DataNode) (i : nat) : Outcome DataNode :=
  match dn_children node !! i with
  | Some child => Ok child
  | None => Undefined
  end.

(** ** ListAccessor *)

(** [ListAccessor(offset, size, node)]: [items_] is the element count kept by
    the ListData base class. *)
Record ListAccessor : Type := mkListAccessor {
  offset_ : N;
  items_ : N;
  node_ : DataNode
}.

(** [ListAccessor::isNull(index)]. *)
Definition ListAccessor_isNull (la : ListAccessor) (index : N) : bool :=
  dn_isNull (node_ la) index.

(** READ_TYPE_BY_ENTRY(TYPE, FUNC). *)
Definition READ_TYPE_BY_ENTRY (T : CType) (la : ListAccessor) (index : N) : cval T :=
  dn_read (node_ la) T (size_add (offset_ la) index).

Definition ListAccessor_readBool := READ_TYPE_BY_ENTRY c_bool.
Definition ListAccessor_readByte := READ_TYPE_BY_ENTRY c_int8.
Definition ListAccessor_readShort := READ_TYPE_BY_ENTRY c_int16.
Definition ListAccessor_readInt := READ_TYPE_BY_ENTRY c_int32.
Definition ListAccessor_readLong := READ_TYPE_BY_ENTRY c_int64.
Definition ListAccessor_readFloat := READ_TYPE_BY_ENTRY c_float.
Definition ListAccessor_readDouble := READ_TYPE_BY_ENTRY c_double.
Definition ListAccessor_readInt128 := READ_TYPE_BY_ENTRY c_int128.
Definition ListAccessor_readString := READ_TYPE_BY_ENTRY c_string_view.

(** ** Batch and RowAccessor *)

Definition loc := positive.

Section Accessors.
Context {Spaces MapData : Type}.

(** Modelled from the spec: [nebula::meta::BessType] (declared in the meta
    module). [value(field, spaces, bess, v)] decodes [field] from
    a row's bit window: [Some v] when it answers true and writes [v], [None]
    when the field is not encoded in the pod. *)
Record BessType : Type := mkBessType {
  bess_value : ∀ T : CType, string → Spaces → N → option (cval T)
}.

(** Modelled from the spec: the bit buffer of the packed snapshot;
    [readBits(position, bits)] reads [bits] bits starting at bit [position]. *)
Record Slice : Type := mkSlice {
  readBits : N → N → N
}.

(** The members of [Batch] the accessor reads. *)
Record Batch : Type := mkBatch {
  rows_ : N;
  pod_ : unique_ptr BessType;
  bess_ : Slice;
  bessBits_ : N;
  spaces_ : Spaces
}.

Record RowAccessor : Type := mkRowAccessor {
  batch_ : Batch;
  dnMap_ : gmap string DataNode;
  current_ : N;
  bessValue_ : N
}.

Definition set_current_ (rowId : N) (self : RowAccessor) : RowAccessor :=
  {| batch_ := batch_ self; dnMap_ := dnMap_ self;
     current_ := rowId; bessValue_ := bessValue_ self |}.

Definition set_bessValue_ (v : N) (self : RowAccessor) : RowAccessor :=
  {| batch_ := batch_ self; dnMap_ := dnMap_ self;
     current_ := current_ self; bessValue_ := v |}.

(** *** Computations over the store of accessor objects *)

Definition M (A : Type) : Type :=
  gmap loc RowAccessor → Outcome A * gmap loc RowAccessor.

#[export] Instance M_ret : MRet M := λ A a h, (Ok a, h).

#[export] Instance M_bind : MBind M := λ A B k m h,
  match m h with
  | (Ok a, h') => k a h'
  | (Throw e, h') => (Throw e, h')
  | (Undefined, h') => (Undefined, h')
  end.

Definition throw {A : Type} (e : Exception) : M A := λ h, (Throw e, h).

Definition lift {A : Type} (o : Outcome A) : M A := λ h, (o, h).

(** Reading the members of [*this]. *)
Definition load (this : loc) : M RowAccessor := λ h,
  match h !! this with
  | Some self => (Ok self, h)
  | None => (Undefined, h)
  end.

(** Assigning to a member of [*this]. *)
Definition store (this : loc) (upd : RowAccessor → RowAccessor) : M unit := λ h,
  match h !! this with
  | Some self => (Ok tt, <[this := upd self]> h)
  | None => (Undefined, h)
  end.

Definition N_ENSURE (cond : bool) (e : Exception) : M unit :=
  if cond then mret tt else throw e.

(** [dnMap_.at(field)]. *)
Definition dnMap_at (self : RowAccessor) (field : string) : M DataNode :=
  match dnMap_ self !! field with
  | Some node => mret node
  | None => throw std_out_of_range
  end.

(** *** RowAccessor methods *)

(** [RowAccessor& RowAccessor::seek(size_t rowId)]; the result is the address
    of the object the method was called on. *)
Definition RowAccessor_seek (this : loc) (rowId : N) : M loc :=
  self ← load this;
  N_ENSURE (rowId <? rows_ (batch_ self)) OutOfRange;;
  store this (set_current_ rowId);;
  match pod_ (batch_ self) with
  | nullptr => mret tt
  | make_unique _ =>
      self ← load this;
      store this (set_bessValue_
        (readBits (bess_ (batch_ self))
                  (size_mul (current_ self) (bessBits_ (batch_ self)))
                  (bessBits_ (batch_ self))))
  end;;
  mret this.

(** [bool RowAccessor::isNull(const std::string& field) const]:
    [find], then N_ENSURE(itr != end), then [itr->second->isNull(current_)]. *)
Definition RowAccessor_isNull (this : loc) (field : string) : M bool :=
  self ← load this;
  match dnMap_ self !! field with
  | None => throw (FieldNotFound field)
  | Some node => mret (dn_isNull node (current_ self))
  end.

(** [batch_.pod_ != nullptr && batch_.pod_->value(field, batch_.spaces_,
    bessValue_, v)]: the decoded [v] when the conjunction holds. *)
Definition pod_value (T : CType) (self : RowAccessor) (field : string) : option (cval T) :=
  match pod_ (batch_ self) with
  | nullptr => None
  | make_unique pod => bess_value pod T field (spaces_ (batch_ self)) (bessValue_ self)
  end.

(** READ_TYPE_BY_FIELD(TYPE, FUNC). *)
Definition READ_TYPE_BY_FIELD (T : CType) (this : loc) (field : string) : M (cval T) :=
  self ← load this;
  match pod_value T self field with
  | Some v => mret v
  | None =>
      node ← dnMap_at self field;
      mret (dn_read node T (current_ self))
  end.

Definition RowAccessor_readBool := READ_TYPE_BY_FIELD c_bool.
Definition RowAccessor_readByte := READ_TYPE_BY_FIELD c_int8.
Definition RowAccessor_readShort := READ_TYPE_BY_FIELD c_int16.
Definition RowAccessor_readInt := READ_TYPE_BY_FIELD c_int32.
Definition RowAccessor_readLong := READ_TYPE_BY_FIELD c_int64.
Definition RowAccessor_readFloat := READ_TYPE_BY_FIELD c_float.
Definition RowAccessor_readDouble := READ_TYPE_BY_FIELD c_double.
Definition RowAccessor_readInt128 := READ_TYPE_BY_FIELD c_int128.
Definition RowAccessor_readString := READ_TYPE_BY_FIELD c_string_view.

(** [std::unique_ptr<ListData> RowAccessor::readList(field) const]. *)
Definition RowAccessor_readList (this : loc) (field : string) : M (unique_ptr ListAccessor) :=
  self ← load this;
  listNode ← dnMap_at self field;
  child ← lift (childAt listNode 0);
  let os := dn_offsetSize listNode (current_ self) in
  mret (make_unique (mkListAccessor os.1 os.2 child)).

(** [std::unique_ptr<MapData> RowAccessor::readMap(const std::string&) const]. *)
Definition RowAccessor_readMap (this : loc) (field : string) : M (unique_ptr MapData) :=
  mret nullptr.

(** *** The DataNode path, as the specification words it *)

(** "resolve the DataNode and delegate to [read<T>(currentRow)]". *)
Definition DataNode_path_read (T : CType) (this : loc) (field : string) : M (cval T) :=
  self ← load this;
  node ← dnMap_at self field;
  mret (dn_read node T (current_ self)).

(** *** Specification vocabulary *)

(** The accessor after a successful [seek(rowId)], as the specification
    describes it: the cursor is repositioned and, if a packed snapshot is
    configured, the fixed-width bit window of the new row is re-read. *)
Definition repositioned (self : RowAccessor) (rowId : N) : RowAccessor :=
  {| batch_ := batch_ self;
     dnMap_ := dnMap_ self;
     current_ := rowId;
     bessValue_ :=
       match pod_ (batch_ self) with
       | nullptr => bessValue_ self
       | make_unique _ =>
           readBits (bess_ (batch_ self))
                    (size_mul rowId (bessBits_ (batch_ self)))
                    (bessBits_ (batch_ self))
       end |}.

(** "The snapshot is a pure accelerator: values it encodes must always equal
    the corresponding DataNode's values for the same row and field." *)
Definition snapshot_consistent (T : CType) (b : Batch) (dn : gmap string DataNode) : Prop :=
  ∀ pod field row v,
    pod_ b = make_unique pod →
    row < rows_ b →
    bess_value pod T field (spaces_ b)
      (readBits (bess_ b) (size_mul row (bessBits_ b)) (bessBits_ b)) = Some v →
    ∃ node, dn !! field = Some node ∧ dn_read node T row = v.

(** The read operations of the accessor, as calls a client can issue. *)
Inductive ReadCall : Type :=
| call_isNull (field : string)
| call_read (T : CType) (field : string)
| call_readList (field : string)
| call_readMap (field : string).

(** The store a call leaves behind, whether it returns or throws. *)
Definition store_after (this : loc) (c : ReadCall)
    (h : gmap loc RowAccessor) : gmap loc RowAccessor :=
  match c with
  | call_isNull field => (RowAccessor_isNull this field h).2
  | call_read T field => (READ_TYPE_BY_FIELD T this field h).2
  | call_readList field => (RowAccessor_readList this field h).2
  | call_readMap field => (RowAccessor_readMap this field h).2
  end.

Fixpoint store_after_all (this : loc) (cs : list ReadCall)
    (h : gmap loc RowAccessor) : gmap loc RowAccessor :=
  match cs with
  | [] => h
  | c :: cs => store_after_all this cs (store_after this c h)
  end.

End Accessors.

Arguments BessType Spaces : clear implicits.
Arguments Batch Spaces : clear implicits.
Arguments RowAccessor Spaces : clear implicits.
Arguments M Spaces A : clear implicits.

(** ** The Type tree *)

Inductive Kind : Set :=
| INVALID | BOOLEAN | TINYINT | SMALLINT | INTEGER | BIGINT | REAL | DOUBLE
| VARCHAR | VARBINARY | TIMESTAMP | ARRAY | MAP | STRUCT.

Record Traits : Set := mkTraits {
  typeKind : Kind;
  isPrimitive : bool;
  width : N;
  name : string
}.

(** DEFINE_TYPE_TRAITS: no specialisation exists for [INVALID]. *)
Definition TypeTraits (KIND : Kind) : option Traits :=
  match KIND with
  | INVALID => None
  | BOOLEAN => Some (mkTraits BOOLEAN true 1 "BOOLEAN")
  | TINYINT => Some (mkTraits TINYINT true 1 "TINYINT")
  | SMALLINT => Some (mkTraits SMALLINT true 2 "SMALLINT")
  | INTEGER => Some (mkTraits INTEGER true 4 "INTEGER")
  | BIGINT => Some (mkTraits BIGINT true 8 "BIGINT")
  | REAL => Some (mkTraits REAL true 4 "REAL")
  | DOUBLE => Some (mkTraits DOUBLE true 8 "DOUBLE")
  | VARCHAR => Some (mkTraits VARCHAR true 0 "VARCHAR")
  | VARBINARY => Some (mkTraits VARBINARY true 0 "VARBINARY")
  | TIMESTAMP => Some (mkTraits TIMESTAMP true 8 "TIMESTAMP")
  | ARRAY => Some (mkTraits ARRAY false 0 "ARRAY")
  | MAP => Some (mkTraits MAP false 0 "MAP")
  | STRUCT => Some (mkTraits STRUCT false 0 "STRUCT")
  end.

(** The base class [Tree] of a type node (declared in Tree.h): the
    constructor [Type<KIND>(name)], [addChild] and [size], as [create] uses
    them. *)
Class Tree (T : Type) : Type := {
  TType : Kind → string → T;
  addChild : T → T → T;
  tree_size : T → N
}.

(** Map type: [Type<Kind::MAP>::create(name, key, value)]. *)
Definition Type_create_map {T : Type} `{Tree T} (name : string) (key value : T) : Outcome T :=
  let type := TType MAP name in
  let type := addChild type key in
  let type := addChild type value in
  (* N_ENSURE_EQ(type.size(), 2, "only 2 children allowed") *)
  if tree_size type =? 2 then Ok type
  else Throw (NException "only 2 children allowed").

(** Modelled from the spec: a type node is a named node tagged with a Kind,
    holding an ordered sequence of child type nodes; [addChild] attaches a
    child after the ones already there and [size] counts the children. *)
#[warnings="-register-all"]
Inductive TypeNode : Type := mkTypeNode {
  kind : Kind;
  name_ : string;
  children : list TypeNode
}.

#[export] Instance TypeNode_tree : Tree TypeNode := {|
  TType := λ k n, mkTypeNode k n [];
  addChild := λ t c, mkTypeNode (kind t) (name_ t) (children t ++ [c]);
  tree_size := λ t, N.of_nat (length (children t))
|}.

(** ** Fixtures *)

Definition cdefault (T : CType) : cval T :=
  match T with
  | c_bool => false
  | c_int8 | c_int16 | c_int32 | c_int64 | c_int128 => 0%Z
  | c_float | c_double => S754_zero false
  | c_string_view => EmptyString
  end.

(** [read<T>] of an INTEGER column holding [vals]. *)
Definition read_int32 (vals : list Z) (T : CType) (row : N) : cval T :=
  match T with
  | c_int32 => nth (N.to_nat row) vals 0%Z
  | T' => cdefault T'
  end.

(** An INTEGER column with the given null rows and values. *)
Definition int32_column (nulls : list N) (vals : list Z) : DataNode :=
  mkDataNode (λ row, bool_decide (row ∈ nulls)) (read_int32 vals) [] (λ _, (0, 0)).

(** An ARRAY column: one child and an (offset, count) pair per row. *)
Definition array_column (child : DataNode) (slices : list (N * N)) : DataNode :=
  mkDataNode (λ _, false) (λ T _, cdefault T) [child]
             (λ row, nth (N.to_nat row) slices (0, 0)).

(** The batch of the specification's scenario: 3 rows, [a = [10, 20, 30]]
    with row 2 marked null, [b = [[1,2], [3], []]]. *)
Definition column_a : DataNode := int32_column [2] [10; 20; 30]%Z.
Definition items_b : DataNode := int32_column [] [1; 2; 3]%Z.
Definition column_b : DataNode := array_column items_b [(0, 2); (2, 1); (3, 0)].

Definition scenario_fields : gmap string DataNode :=
  <["a" := column_a]> (<["b" := column_b]> ∅).

Definition scenario_batch : Batch unit :=
  mkBatch 3 nullptr (mkSlice (λ _ _, 0)) 0 tt.

Definition scenario_accessor : RowAccessor unit :=
  mkRowAccessor scenario_batch scenario_fields 0 0.

Definition scenario_store : gmap loc (RowAccessor unit) :=
  {[ 1%positive := scenario_accessor ]}.

(** Client code: position the accessor, then read through the returned
    reference. *)
Definition seek_then {A : Type} (rowId : N) (read : loc → M unit A)
    (h : gmap loc (RowAccessor unit)) : Outcome A :=
  ((RowAccessor_seek 1%positive rowId ≫= read) h).1.

(** A packed snapshot of column [a], 32 bits per row, read from the low bits
    of [buffer] upwards. *)
Definition buffer_slice (buffer : N) : Slice :=
  mkSlice (λ position bits, N.land (N.shiftr buffer position) (N.ones bits)).

Definition pod_a : BessType unit :=
  mkBessType (λ T field _ window,
    if String.eqb field "a" then
      match T return option (cval T) with
      | c_int32 => Some (Z.of_N window)
      | _ => None
      end
    else None).

Definition packed_batch (buffer : N) : Batch unit :=
  mkBatch 3 (make_unique pod_a) (buffer_slice buffer) 32 tt.

Definition packed_accessor (buffer : N) : RowAccessor unit :=
  mkRowAccessor (packed_batch buffer) scenario_fields 0 0.

Definition packed_store (buffer : N) : gmap loc (RowAccessor unit) :=
  {[ 1%positive := packed_accessor buffer ]}.

(** The bits of [10, 20, 30]. *)
Definition faithful_buffer : N := 10 + N.shiftl 20 32 + N.shiftl 30 64.

(** A list over [[1, 2], [null], []]: the element of row 1 is null. *)
Definition items_null2 : DataNode := int32_column [2] [1; 2; 3]%Z.
Definition list_row1 : ListAccessor := mkListAccessor 2 1 items_null2.

Definition null_item_store : gmap loc (RowAccessor unit) :=
  {[ 1%positive :=
       mkRowAccessor scenario_batch
         (<["b" := array_column items_null2 [(0, 2); (2, 1); (3, 0)]]> ∅) 0 0 ]}.

(** A tree that keeps at most one child: a further [addChild] is dropped. *)
Definition single_child_tree : Tree TypeNode := {|
  TType := λ k n, mkTypeNode k n [];
  addChild := λ t c,
    match children t with
    | [] => mkTypeNode (kind t) (name_ t) [c]
    | _ => t
    end;
  tree_size := λ t, N.of_nat (length (children t))
|}.

Definition varchar_key : TypeNode := mkTypeNode VARCHAR "k" [].
Definition bigint_value : TypeNode := mkTypeNode BIGINT "v" [].

(** ** Type methods and the struct constructor *)

(** The accessors of [Type<KIND>] read [TypeTraits<KIND>]; they exist only
    for a kind that has traits. *)
Definition Type_kind (KIND : Kind) : option Kind := typeKind <$> TypeTraits KIND.
Definition Type_type (KIND : Kind) : option string := name <$> TypeTraits KIND.
Definition Type_isPrimitive (KIND : Kind) : option bool := isPrimitive <$> TypeTraits KIND.
Definition Type_isFixedWidth (KIND : Kind) : option bool :=
  (λ traits, 0 <? width traits) <$> TypeTraits KIND.
Definition Type_width (KIND : Kind) : option N := width <$> TypeTraits KIND.

(** Modelled from the spec: [addChildren(fields...)] of the Tree base class
    attaches one child per supplied field, in argument order. *)
Definition addChildren {T : Type} `{Tree T} (type : T) (fields : list T) : T :=
  foldl addChild type fields.

(** Struct type: [Type<Kind::STRUCT>::create(name, fields...)]. *)
Definition Type_create_struct {T : Type} `{Tree T} (name : string) (fields : list T) : Outcome T :=
  let type := TType STRUCT name in
  let type := addChildren type fields in
  (* N_ENSURE_EQ(type.size(), sizeof...(fields), "all children added") *)
  if tree_size type =? N.of_nat (length fields) then Ok type
  else Throw (NException "all children added").

(** ** ConnectionPool *)

(** The connectivity states of a gRPC channel. *)
Inductive grpc_connectivity_state : Set :=
| GRPC_CHANNEL_IDLE
| GRPC_CHANNEL_CONNECTING
| GRPC_CHANNEL_READY
| GRPC_CHANNEL_TRANSIENT_FAILURE
| GRPC_CHANNEL_SHUTDOWN.

#[export] Instance grpc_connectivity_state_eq_dec : EqDecision grpc_connectivity_state.
Proof. solve_decision. Defined.

Inductive ChannelCredentials : Set := InsecureChannelCredentials.

(** [grpc::ChannelArguments], as far as the pool configures them. *)
Record ChannelArguments : Set := mkChannelArguments {
  max_receive_message_size : option Z
}.

Definition SetMaxReceiveMessageSize (size : Z) (args : ChannelArguments) : ChannelArguments :=
  {| max_receive_message_size := Some size |}.

(** A channel object: what it was created with. Its connectivity and its
    lifetime are gRPC's and are not part of the record. *)
Record Channel : Set := mkChannel {
  target : string;
  credentials : ChannelCredentials;
  arguments : ChannelArguments
}.

(** The pool's [connections_] member together with the channel objects
    that have been created; [channels] records creations only, not the
    release of a channel nobody holds any more. *)
Record PoolState : Type := mkPoolState {
  channels : gmap loc Channel;
  connections_ : gmap string loc
}.

(** [grpc::CreateCustomChannel(target, creds, args)]: a new channel object. *)
Definition CreateCustomChannel (addr : string) (creds : ChannelCredentials)
    (args : ChannelArguments) (heap : gmap loc Channel) : loc * gmap loc Channel :=
  let channel := fresh (dom heap) in
  (channel, <[channel := mkChannel addr creds args]> heap).

(** [ConnectionPool::connection(addr)]; [GetState] is what
    [channel->GetState(try_to_connect)] answers during the call; what the
    request to connect does to the channel is gRPC's business and is left
    out. *)
Definition ConnectionPool_connection
    (GetState : loc → bool → grpc_connectivity_state)
    (addr : string) (s : PoolState) : loc * PoolState :=
  let create :=
    let chArgs := SetMaxReceiveMessageSize (-1) (mkChannelArguments None) in
    let (channel, heap) :=
      CreateCustomChannel addr InsecureChannelCredentials chArgs (channels s) in
    (channel, {| channels := heap; connections_ := <[addr := channel]> (connections_ s) |}) in
  match connections_ s !! addr with
  | Some channel =>
      let state := GetState channel true in
      if bool_decide (state ≠ GRPC_CHANNEL_SHUTDOWN) then (channel, s)
      else create
  | None => create
  end.

(** A client issuing calls one after the other, each under the connectivity
    it meets; the channels handed out, in call order, and the final state. *)
Fixpoint connection_calls
    (calls : list ((loc → bool → grpc_connectivity_state) * string))
    (s : PoolState) : list loc * PoolState :=
  match calls with
  | [] => ([], s)
  | (GetState, addr) :: calls =>
      let (channel, s) := ConnectionPool_connection GetState addr s in
      let (handed, s) := connection_calls calls s in
      (channel :: handed, s)
  end.

(** The channel the pool dials for [addr]. *)
Definition dialed (addr : string) : Channel :=
  mkChannel addr InsecureChannelCredentials (mkChannelArguments (Some (-1)%Z)).

(** Every pooled entry points to a channel dialed for its own address. *)
Definition pool_wf (s : PoolState) : Prop :=
  ∀ addr channel, connections_ s !! addr = Some channel →
                  channels s !! channel = Some (dialed addr).

(** ** More fixtures *)

Definition two_accessor_store : gmap loc (RowAccessor unit) :=
  <[2%positive := packed_accessor faithful_buffer]> scenario_store.

Definition empty_pool : PoolState := mkPoolState ∅ ∅.

Definition always (state : grpc_connectivity_state) : loc → bool → grpc_connectivity_state :=
  λ _ _, state.

(** A pool that has dialed ["n1:9199"] once. *)
Definition one_channel_pool : PoolState :=
  (ConnectionPool_connection (always GRPC_CHANNEL_READY) "n1:9199" empty_pool).2.

(** * Properties *)

(** ** Machine arithmetic *)

Lemma size_add_exact (a b : N) : a + b < size_t_max → size_add a b = a + b.
Proof. intros Hlt. unfold size_add. by apply N.mod_small. Qed.

Lemma size_mul_exact (a b : N) : a * b < size_t_max → size_mul a b = a * b.
Proof. intros Hlt. unfold size_mul. by apply N.mod_small. Qed.

(** ** ListAccessor *)

(** The null check of a list entry consults the child node at the local
    index itself. *)
Lemma ListAccessor_isNull_unfold (la : ListAccessor) (index : N) :
  ListAccessor_isNull la index = dn_isNull (node_ la) index.
Proof. reflexivity. Qed.

(** C2, evaluated on the list of row 1 of [[1, 2], [null], []], bound to
    (offset 2, count 1): its only element is null in the child node at row
    [2 + 0], yet [isNull(0)] answers for child row 0 and returns false. The
    typed reader of the same entry does read child row 2. *)
Theorem ListAccessor_isNull_misses_offset :
  ListAccessor_isNull list_row1 0 = false ∧
  dn_isNull (node_ list_row1) (size_add (offset_ list_row1) 0) = true ∧
  ListAccessor_readInt list_row1 0 = dn_read (node_ list_row1) c_int32 2.
Proof. by vm_compute. Qed.

(** C5: every scalar reader of a ListAccessor bound to (offset, count,
    childNode) returns the child node's [read<T>] at [offset + index], the
    sum being the one of [IndexType]; it is the plain sum whenever that fits
    the word, as it does for any window inside the child node's rows. *)
Theorem ListAccessor_read_delegates (T : CType) (la : ListAccessor) (index : N) :
  READ_TYPE_BY_ENTRY T la index = dn_read (node_ la) T (size_add (offset_ la) index) ∧
  (index < items_ la → offset_ la + items_ la ≤ size_t_max →
   READ_TYPE_BY_ENTRY T la index = dn_read (node_ la) T (offset_ la + index)).
Proof.
  split; [reflexivity|].
  intros Hidx Hfit. unfold READ_TYPE_BY_ENTRY.
  rewrite size_add_exact; [reflexivity | lia].
Qed.

(** The nine named readers are the instances of the macro. *)
Lemma ListAccessor_readers (la : ListAccessor) (index : N) :
  let row := size_add (offset_ la) index in
  ListAccessor_readBool la index = dn_read (node_ la) c_bool row ∧
  ListAccessor_readByte la index = dn_read (node_ la) c_int8 row ∧
  ListAccessor_readShort la index = dn_read (node_ la) c_int16 row ∧
  ListAccessor_readInt la index = dn_read (node_ la) c_int32 row ∧
  ListAccessor_readLong la index = dn_read (node_ la) c_int64 row ∧
  ListAccessor_readFloat la index = dn_read (node_ la) c_float row ∧
  ListAccessor_readDouble la index = dn_read (node_ la) c_double row ∧
  ListAccessor_readInt128 la index = dn_read (node_ la) c_int128 row ∧
  ListAccessor_readString la index = dn_read (node_ la) c_string_view row.
Proof. repeat split. Qed.

(** ** RowAccessor *)

Section AccessorProperties.
Context {Spaces MapData : Type}.
Implicit Types (this : loc) (field : string) (rowId : N).
Implicit Types (h : gmap loc (RowAccessor Spaces)) (self : RowAccessor Spaces).

(** *** Running a method on a live accessor *)

Lemma load_live this h self : h !! this = Some self → load this h = (Ok self, h).
Proof. intros Hlive. unfold load. by rewrite Hlive. Qed.

Lemma store_live this upd h self :
  h !! this = Some self → store this upd h = (Ok tt, <[this := upd self]> h).
Proof. intros Hlive. unfold store. by rewrite Hlive. Qed.

Lemma bind_load {A : Type} this (k : RowAccessor Spaces → M Spaces A) h self :
  h !! this = Some self → (load this ≫= k) h = k self h.
Proof. intros Hlive. unfold mbind, M_bind. by rewrite (load_live _ _ _ Hlive). Qed.

Lemma bind_load_dead {A : Type} this (k : RowAccessor Spaces → M Spaces A) h :
  h !! this = None → (load this ≫= k) h = (Undefined, h).
Proof. intros Hdead. unfold mbind, M_bind, load. by rewrite Hdead. Qed.

Lemma bind_store {A : Type} this upd (k : unit → M Spaces A) h self :
  h !! this = Some self → (store this upd ≫= k) h = k tt (<[this := upd self]> h).
Proof. intros Hlive. unfold mbind, M_bind. by rewrite (store_live _ _ _ _ Hlive). Qed.

Lemma seek_in_range this rowId h self :
  h !! this = Some self → rowId < rows_ (batch_ self) →
  RowAccessor_seek this rowId h = (Ok this, <[this := repositioned self rowId]> h).
Proof.
  intros Hlive Hlt. unfold RowAccessor_seek.
  rewrite (bind_load _ _ _ _ Hlive).
  apply N.ltb_lt in Hlt. rewrite Hlt. unfold N_ENSURE.
  unfold mbind at 1, M_bind at 1. unfold mret at 1, M_ret at 1.
  rewrite (bind_store _ _ _ _ _ Hlive).
  unfold repositioned. destruct (pod_ (batch_ self)) as [|pod].
  - unfold mbind, M_bind, mret, M_ret. simpl. reflexivity.
  - unfold mbind at 1, M_bind at 1.
    rewrite (bind_load _ _ _ _ (lookup_insert_eq h this _)).
    rewrite (store_live _ _ _ _ (lookup_insert_eq h this _)).
    rewrite insert_insert_eq. reflexivity.
Qed.

Lemma seek_out_of_range this rowId h self :
  h !! this = Some self → rows_ (batch_ self) ≤ rowId →
  RowAccessor_seek this rowId h = (Throw OutOfRange, h).
Proof.
  intros Hlive Hge. unfold RowAccessor_seek.
  rewrite (bind_load _ _ _ _ Hlive).
  apply N.ltb_ge in Hge. rewrite Hge. reflexivity.
Qed.

(** *** seek *)

(** C3: on a live accessor, [seek(rowId)] throws OutOfRange exactly when
    [rowId >= rows_]; below the row count it returns the address it was
    called on and leaves, at that address, the accessor repositioned to
    [rowId] with the bit window re-read when a pod is configured. No other
    object is created or touched. *)
Theorem RowAccessor_seek_spec this rowId h self :
  h !! this = Some self →
  ((RowAccessor_seek this rowId h).1 = Throw OutOfRange ↔ rows_ (batch_ self) ≤ rowId) ∧
  (rowId < rows_ (batch_ self) →
   RowAccessor_seek this rowId h = (Ok this, <[this := repositioned self rowId]> h) ∧
   current_ (repositioned self rowId) = rowId ∧
   (∀ pod, pod_ (batch_ self) = make_unique pod →
      bessValue_ (repositioned self rowId) =
        readBits (bess_ (batch_ self))
                 (size_mul rowId (bessBits_ (batch_ self)))
                 (bessBits_ (batch_ self))) ∧
   (pod_ (batch_ self) = nullptr →
      bessValue_ (repositioned self rowId) = bessValue_ self)).
Proof.
  intros Hlive. split.
  - split.
    + intros Hthrow. destruct (N.le_gt_cases (rows_ (batch_ self)) rowId) as [Hge|Hlt]; [done|].
      rewrite (seek_in_range _ _ _ _ Hlive Hlt) in Hthrow. discriminate Hthrow.
    + intros Hge. by rewrite (seek_out_of_range _ _ _ _ Hlive Hge).
  - intros Hlt. split; [by apply seek_in_range|].
    split; [reflexivity|]. split.
    + intros pod Hpod. unfold repositioned. simpl. by rewrite Hpod.
    + intros Hpod. unfold repositioned. simpl. by rewrite Hpod.
Qed.

(** C9: a failing [seek] leaves the store, and with it the current row and
    the cached bit window of the accessor, exactly as it found them. *)
Theorem RowAccessor_seek_failure_atomic this rowId h self :
  h !! this = Some self →
  rows_ (batch_ self) ≤ rowId →
  RowAccessor_seek this rowId h = (Throw OutOfRange, h) ∧
  (RowAccessor_seek this rowId h).2 !! this = Some self.
Proof.
  intros Hlive Hge. rewrite (seek_out_of_range _ _ _ _ Hlive Hge). by split.
Qed.

(** *** isNull *)

(** C6: on a live accessor, [isNull(field)] throws FieldNotFound exactly when
    [field] has no entry in the field map, and otherwise returns the entry's
    [isNull] at the current row. *)
Theorem RowAccessor_isNull_spec this field h self :
  h !! this = Some self →
  ((RowAccessor_isNull this field h).1 = Throw (FieldNotFound field) ↔
   dnMap_ self !! field = None) ∧
  (∀ node, dnMap_ self !! field = Some node →
     RowAccessor_isNull this field h = (Ok (dn_isNull node (current_ self)), h)).
Proof.
  intros Hlive. unfold RowAccessor_isNull. rewrite (bind_load _ _ _ _ Hlive).
  destruct (dnMap_ self !! field) as [node|] eqn:Hfield.
  - split; [split; intros Habs; discriminate Habs|].
    intros node' [= <-]. reflexivity.
  - split; [done|]. intros node Habs. discriminate Habs.
Qed.

(** *** readList *)

(** C4: on a live accessor at row [current_], for a field whose node has a
    single child, [readList(field)] returns a fresh ListAccessor bound to
    [offsetSize(current_)] and that child. *)
Theorem RowAccessor_readList_spec this field h self listNode child :
  h !! this = Some self →
  dnMap_ self !! field = Some listNode →
  dn_children listNode = [child] →
  RowAccessor_readList this field h =
    (Ok (make_unique
           (mkListAccessor (dn_offsetSize listNode (current_ self)).1
                           (dn_offsetSize listNode (current_ self)).2
                           child)), h).
Proof.
  intros Hlive Hfield Hchild. unfold RowAccessor_readList.
  rewrite (bind_load _ _ _ _ Hlive).
  unfold dnMap_at. rewrite Hfield.
  unfold mbind, M_bind, mret, M_ret, lift, childAt. rewrite Hchild. reflexivity.
Qed.

(** *** readMap *)

(** C7: [readMap] returns [nullptr] for every field and every store; it never
    throws, is never undefined and never returns a map. *)
Theorem RowAccessor_readMap_absent this field h :
  @RowAccessor_readMap Spaces MapData this field h = (Ok nullptr, h) ∧
  (∀ e, (@RowAccessor_readMap Spaces MapData this field h).1 ≠ Throw e) ∧
  (∀ m : MapData, (@RowAccessor_readMap Spaces MapData this field h).1 ≠ Ok (make_unique m)).
Proof. repeat split; intros ?; discriminate. Qed.

(** *** Reads do not move the cursor *)

Lemma RowAccessor_isNull_frame this field h : (RowAccessor_isNull this field h).2 = h.
Proof.
  unfold RowAccessor_isNull. destruct (h !! this) as [self|] eqn:Hthis.
  - rewrite (bind_load _ _ _ _ Hthis). by destruct (dnMap_ self !! field).
  - by rewrite (bind_load_dead _ _ _ Hthis).
Qed.

Lemma dnMap_at_frame self field h : (dnMap_at self field h).2 = h.
Proof. unfold dnMap_at. by destruct (dnMap_ self !! field). Qed.

Lemma READ_TYPE_BY_FIELD_frame T this field h : (READ_TYPE_BY_FIELD T this field h).2 = h.
Proof.
  unfold READ_TYPE_BY_FIELD. destruct (h !! this) as [self|] eqn:Hthis.
  - rewrite (bind_load _ _ _ _ Hthis). destruct (pod_value T self field); [done|].
    unfold mbind, M_bind, dnMap_at. by destruct (dnMap_ self !! field).
  - by rewrite (bind_load_dead _ _ _ Hthis).
Qed.

Lemma RowAccessor_readList_frame this field h : (RowAccessor_readList this field h).2 = h.
Proof.
  unfold RowAccessor_readList. destruct (h !! this) as [self|] eqn:Hthis.
  - rewrite (bind_load _ _ _ _ Hthis).
    unfold mbind, M_bind, dnMap_at, lift. destruct (dnMap_ self !! field) as [node|]; [|done].
    simpl. by destruct (childAt node 0).
  - by rewrite (bind_load_dead _ _ _ Hthis).
Qed.

Lemma store_after_frame this (c : ReadCall) h :
  @store_after Spaces MapData this c h = h.
Proof.
  destruct c; simpl.
  - apply RowAccessor_isNull_frame.
  - apply READ_TYPE_BY_FIELD_frame.
  - apply RowAccessor_readList_frame.
  - reflexivity.
Qed.

(** C10: whatever it returns or throws, a read ([isNull], a scalar reader,
    [readList], [readMap]) leaves the store as it was; hence after any
    sequence of reads the accessor still holds the current row and the bit
    window the last [seek] gave it. *)
Theorem RowAccessor_reads_frame this (cs : list ReadCall) h :
  @store_after_all Spaces MapData this cs h = h ∧
  (∀ field, (RowAccessor_isNull this field h).2 = h) ∧
  (∀ T field, (READ_TYPE_BY_FIELD T this field h).2 = h) ∧
  (∀ field, (RowAccessor_readList this field h).2 = h) ∧
  (∀ field, (@RowAccessor_readMap Spaces MapData this field h).2 = h).
Proof.
  split.
  - revert h. induction cs as [|c cs IH]; intros h; simpl; [done|].
    by rewrite store_after_frame.
  - split; [intros field; apply RowAccessor_isNull_frame|].
    split; [intros T field; apply READ_TYPE_BY_FIELD_frame|].
    split; [intros field; apply RowAccessor_readList_frame|done].
Qed.

(** *** Scalar readers: packed path against DataNode path *)

Lemma read_packed T this field h self v :
  h !! this = Some self → pod_value T self field = Some v →
  READ_TYPE_BY_FIELD T this field h = (Ok v, h).
Proof.
  intros Hlive Hpod. unfold READ_TYPE_BY_FIELD.
  rewrite (bind_load _ _ _ _ Hlive). by rewrite Hpod.
Qed.

Lemma read_unpacked T this field h self :
  h !! this = Some self → pod_value T self field = None →
  READ_TYPE_BY_FIELD T this field h = DataNode_path_read T this field h.
Proof.
  intros Hlive Hpod. unfold READ_TYPE_BY_FIELD, DataNode_path_read.
  rewrite !(bind_load _ _ _ _ Hlive). by rewrite Hpod.
Qed.

Lemma DataNode_path_found T this field h self node :
  h !! this = Some self → dnMap_ self !! field = Some node →
  DataNode_path_read T this field h = (Ok (dn_read node T (current_ self)), h).
Proof.
  intros Hlive Hfield. unfold DataNode_path_read.
  rewrite (bind_load _ _ _ _ Hlive). unfold dnMap_at. by rewrite Hfield.
Qed.

(** C1: on a live accessor a scalar reader returns the value the pod
    decodes from the cached bit window whenever the pod is configured and
    encodes the field, and the DataNode path's result whenever the pod is
    absent or does not encode the field. On a batch that satisfies the
    Batch invariant (the snapshot encodes the values of the data nodes),
    after [seek(rowId)] the reader and the DataNode path give the same
    result for every field; for a field the pod encodes both give the value
    decoded from the bit window of [rowId]. *)
Theorem READ_TYPE_BY_FIELD_refines (T : CType) this field h self :
  h !! this = Some self →
  (∀ pod v,
     pod_ (batch_ self) = make_unique pod →
     bess_value pod T field (spaces_ (batch_ self)) (bessValue_ self) = Some v →
     READ_TYPE_BY_FIELD T this field h = (Ok v, h)) ∧
  (pod_ (batch_ self) = nullptr ∨
   (∃ pod, pod_ (batch_ self) = make_unique pod ∧
           bess_value pod T field (spaces_ (batch_ self)) (bessValue_ self) = None) →
   READ_TYPE_BY_FIELD T this field h = DataNode_path_read T this field h) ∧
  (∀ rowId,
     rowId < rows_ (batch_ self) →
     snapshot_consistent T (batch_ self) (dnMap_ self) →
     let h' := (RowAccessor_seek this rowId h).2 in
     READ_TYPE_BY_FIELD T this field h' = DataNode_path_read T this field h') ∧
  (∀ rowId pod v,
     rowId < rows_ (batch_ self) →
     snapshot_consistent T (batch_ self) (dnMap_ self) →
     pod_ (batch_ self) = make_unique pod →
     bess_value pod T field (spaces_ (batch_ self))
       (readBits (bess_ (batch_ self))
                 (size_mul rowId (bessBits_ (batch_ self)))
                 (bessBits_ (batch_ self))) = Some v →
     let h' := (RowAccessor_seek this rowId h).2 in
     READ_TYPE_BY_FIELD T this field h' = (Ok v, h') ∧
     DataNode_path_read T this field h' = (Ok v, h')).
Proof.
  intros Hlive. split; [|split; [|split]].
  - intros pod v Hpod Hval. apply (read_packed _ _ _ _ self); [done|].
    unfold pod_value. by rewrite Hpod.
  - intros Hnone. apply (read_unpacked _ _ _ _ self); [done|].
    unfold pod_value. destruct Hnone as [Hpod | (pod & Hpod & Hval)]; by rewrite Hpod.
  - intros rowId Hlt Hcons h'. subst h'.
    rewrite (seek_in_range _ _ _ _ Hlive Hlt). simpl.
    set (self' := repositioned self rowId).
    assert (Hlive' : <[this := self']> h !! this = Some self') by apply lookup_insert_eq.
    destruct (pod_value T self' field) as [v|] eqn:Hval.
    + rewrite (read_packed _ _ _ _ _ _ Hlive' Hval).
      unfold pod_value in Hval. subst self'. simpl in Hval.
      destruct (pod_ (batch_ self)) as [|pod] eqn:Hpod; [discriminate Hval|].
      destruct (Hcons pod field rowId v Hpod Hlt Hval) as (node & Hfield & Hread).
      rewrite (DataNode_path_found _ _ _ _ _ node Hlive'); [|done].
      simpl. by rewrite Hread.
    + by apply (read_unpacked _ _ _ _ self').
  - intros rowId pod v Hlt Hcons Hpod Hval h'. subst h'.
    rewrite (seek_in_range _ _ _ _ Hlive Hlt). simpl.
    set (self' := repositioned self rowId).
    assert (Hlive' : <[this := self']> h !! this = Some self') by apply lookup_insert_eq.
    destruct (Hcons pod field rowId v Hpod Hlt Hval) as (node & Hfield & Hread).
    split.
    + apply (read_packed _ _ _ _ self'); [done|].
      unfold pod_value. subst self'. simpl. by rewrite Hpod.
    + rewrite (DataNode_path_found _ _ _ _ _ node Hlive'); [|done].
      simpl. by rewrite Hread.
Qed.

End AccessorProperties.

(** ** Type tree *)

(** C8: [create] for a map attaches the key and then the value to a fresh
    MAP node. It returns that node when the tree then reports 2 children and
    throws otherwise; with children kept as an ordered sequence the node
    always has exactly the children [key; value] and [create] succeeds. *)
Theorem Type_create_map_spec :
  (∀ (T : Type) (ops : Tree T) (name : string) (key value : T),
     let type := addChild (addChild (TType MAP name) key) value in
     (tree_size type = 2 → Type_create_map name key value = Ok type) ∧
     (tree_size type ≠ 2 →
      Type_create_map name key value = Throw (NException "only 2 children allowed"))) ∧
  (∀ (name : string) (key value : TypeNode),
     Type_create_map name key value = Ok (mkTypeNode MAP name [key; value])).
Proof.
  split.
  - intros T ops name key value type. unfold Type_create_map. fold type. split.
    + intros Hsize. by rewrite Hsize.
    + intros Hsize. apply N.eqb_neq in Hsize. by rewrite Hsize.
  - intros name key value. reflexivity.
Qed.

(** ** The scenario of the specification, evaluated *)

Example scenario_seek_readInt :
  seek_then 1 (λ r, RowAccessor_readInt r "a") scenario_store = Ok 20%Z.
Proof. by vm_compute. Qed.

Example scenario_readList_row0 :
  ∃ la, seek_then 0 (λ r, RowAccessor_readList r "b") scenario_store = Ok (make_unique la) ∧
        items_ la = 2 ∧
        ListAccessor_readInt la 0 = 1%Z ∧ ListAccessor_readInt la 1 = 2%Z.
Proof. eexists. split; [by vm_compute|]. by vm_compute. Qed.

Example scenario_readList_row2 :
  ∃ la, seek_then 2 (λ r, RowAccessor_readList r "b") scenario_store = Ok (make_unique la) ∧
        items_ la = 0.
Proof. eexists. split; [by vm_compute|]. by vm_compute. Qed.

Example scenario_isNull_row2 :
  seek_then 2 (λ r, RowAccessor_isNull r "a") scenario_store = Ok true.
Proof. by vm_compute. Qed.

Example scenario_seek_one_past_last :
  (RowAccessor_seek 1%positive 3 scenario_store).1 = Throw OutOfRange.
Proof. by vm_compute. Qed.

Example scenario_unknown_field :
  seek_then 0 (λ r, RowAccessor_isNull r "c") scenario_store = Throw (FieldNotFound "c") ∧
  seek_then 0 (λ r, RowAccessor_readInt r "c") scenario_store = Throw std_out_of_range.
Proof. by vm_compute. Qed.

(** [list_row1] is what [readList("b")] hands out on row 1. *)
Example list_row1_from_readList :
  seek_then 1 (λ r, RowAccessor_readList r "b") null_item_store = Ok (make_unique list_row1).
Proof. by vm_compute. Qed.

(** The faithful buffer is consistent with column [a]. *)
Lemma faithful_snapshot_consistent :
  snapshot_consistent c_int32 (packed_batch faithful_buffer) scenario_fields.
Proof.
  intros pod field row v [= <-] Hrow. change (row < 3) in Hrow. simpl.
  destruct (String.eqb_spec field "a") as [->|Hne]; [|discriminate].
  intros [= <-]. exists column_a. split; [by vm_compute|].
  assert (Hcases : row = 0 ∨ row = 1 ∨ row = 2) by lia.
  destruct Hcases as [->|[->| ->]]; by vm_compute.
Qed.

(** ** Instances of the theorems on the fixtures *)

Lemma ListAccessor_read_delegates_witness :
  READ_TYPE_BY_ENTRY c_int32 list_row1 0 = dn_read items_null2 c_int32 (2 + 0).
Proof.
  apply (proj2 (ListAccessor_read_delegates c_int32 list_row1 0)).
  - reflexivity.
  - vm_compute. discriminate.
Defined.

Lemma RowAccessor_seek_spec_witness :
  RowAccessor_seek 1%positive 1 scenario_store
    = (Ok 1%positive, <[1%positive := repositioned scenario_accessor 1]> scenario_store).
Proof.
  apply (proj2 (RowAccessor_seek_spec 1%positive 1 scenario_store scenario_accessor eq_refl)).
  reflexivity.
Defined.

Lemma RowAccessor_seek_failure_atomic_witness :
  RowAccessor_seek 1%positive 3 scenario_store = (Throw OutOfRange, scenario_store).
Proof.
  apply (RowAccessor_seek_failure_atomic 1%positive 3 scenario_store scenario_accessor eq_refl).
  vm_compute. discriminate.
Defined.

Lemma RowAccessor_isNull_spec_witness :
  RowAccessor_isNull 1%positive "a" scenario_store = (Ok false, scenario_store).
Proof.
  apply (proj2 (RowAccessor_isNull_spec 1%positive "a" scenario_store scenario_accessor eq_refl)
           column_a).
  reflexivity.
Defined.

Lemma RowAccessor_readList_spec_witness :
  RowAccessor_readList 1%positive "b" scenario_store
    = (Ok (make_unique (mkListAccessor 0 2 items_b)), scenario_store).
Proof.
  apply (RowAccessor_readList_spec 1%positive "b" scenario_store scenario_accessor
           column_b items_b eq_refl); reflexivity.
Defined.

Lemma READ_TYPE_BY_FIELD_refines_witness :
  READ_TYPE_BY_FIELD c_int32 1%positive "a"
      (RowAccessor_seek 1%positive 1 (packed_store faithful_buffer)).2
    = DataNode_path_read c_int32 1%positive "a"
        (RowAccessor_seek 1%positive 1 (packed_store faithful_buffer)).2.
Proof.
  apply (proj1 (proj2 (proj2 (READ_TYPE_BY_FIELD_refines c_int32 1%positive "a"
                                (packed_store faithful_buffer)
                                (packed_accessor faithful_buffer) eq_refl))) 1).
  - reflexivity.
  - exact faithful_snapshot_consistent.
Defined.

Lemma Type_create_map_spec_witness :
  Type_create_map "m" varchar_key bigint_value
    = Ok (addChild (addChild (TType MAP "m") varchar_key) bigint_value) ∧
  @Type_create_map TypeNode single_child_tree "m" varchar_key bigint_value
    = Throw (NException "only 2 children allowed").
Proof.
  split.
  - apply (proj1 (proj1 Type_create_map_spec TypeNode TypeNode_tree
                    "m" varchar_key bigint_value)).
    reflexivity.
  - apply (proj2 (proj1 Type_create_map_spec TypeNode single_child_tree
                    "m" varchar_key bigint_value)).
    vm_compute. discriminate.
Defined.

(** * Further properties of the accessors *)

Section AccessorCompositions.
Context {Spaces : Type}.
Implicit Types (this : loc) (field : string) (rowId : N).
Implicit Types (h : gmap loc (RowAccessor Spaces)) (self : RowAccessor Spaces).

Lemma repositioned_twice self r1 r2 :
  repositioned (repositioned self r1) r2 = repositioned self r2.
Proof. unfold repositioned. simpl. by destruct (pod_ (batch_ self)). Qed.

Lemma seek_then_in_range {A : Type} this rowId (k : loc → M Spaces A) h self :
  h !! this = Some self → rowId < rows_ (batch_ self) →
  (RowAccessor_seek this rowId ≫= k) h = k this (<[this := repositioned self rowId]> h).
Proof.
  intros Hlive Hlt. unfold mbind, M_bind.
  by rewrite (seek_in_range _ _ _ _ Hlive Hlt).
Qed.

(** X1: [seek] is re-entrant: positioning on [r1] and then on [r2] (both
    below the row count) gives the same result and the same accessor state
    as positioning on [r2] directly. *)
Theorem RowAccessor_seek_rebinds this r1 r2 h self :
  h !! this = Some self →
  r1 < rows_ (batch_ self) →
  r2 < rows_ (batch_ self) →
  (RowAccessor_seek this r1 ≫= λ r, RowAccessor_seek r r2) h = RowAccessor_seek this r2 h.
Proof.
  intros Hlive Hr1 Hr2.
  rewrite (seek_then_in_range _ _ _ _ _ Hlive Hr1).
  rewrite (seek_in_range this r2 _ (repositioned self r1)); [|apply lookup_insert_eq|done].
  rewrite (seek_in_range _ _ _ _ Hlive Hr2).
  by rewrite insert_insert_eq, repositioned_twice.
Qed.

(** X2: whatever its outcome, [seek] touches no other accessor of the
    store, creates and destroys none, and leaves the batch reference and the
    field map of its own accessor as they were. *)
Theorem RowAccessor_seek_frame this rowId h :
  (∀ other, other ≠ this → (RowAccessor_seek this rowId h).2 !! other = h !! other) ∧
  dom (RowAccessor_seek this rowId h).2 = dom h ∧
  (∀ self, h !! this = Some self →
     ∃ self', (RowAccessor_seek this rowId h).2 !! this = Some self' ∧
              batch_ self' = batch_ self ∧ dnMap_ self' = dnMap_ self).
Proof.
  destruct (h !! this) as [self|] eqn:Hthis.
  - destruct (N.le_gt_cases (rows_ (batch_ self)) rowId) as [Hge|Hlt].
    + rewrite (seek_out_of_range _ _ _ _ Hthis Hge). simpl.
      split; [done|]. split; [done|].
      intros self0 [= <-]. by exists self.
    + rewrite (seek_in_range _ _ _ _ Hthis Hlt). simpl.
      split; [intros other Hne; by rewrite lookup_insert_ne|].
      split; [apply dom_insert_lookup_L; by rewrite Hthis|].
      intros self0 [= <-]. exists (repositioned self rowId).
      by rewrite lookup_insert_eq.
  - unfold RowAccessor_seek. rewrite (bind_load_dead _ _ _ Hthis). simpl.
    split; [done|]. split; [done|]. intros self Habs. discriminate Habs.
Qed.

(** X3: after [seek(rowId)] on a row below the row count, [isNull(field)]
    of a known field is the null flag of that field's node at [rowId]. *)
Theorem seek_then_isNull this rowId field h self node :
  h !! this = Some self →
  rowId < rows_ (batch_ self) →
  dnMap_ self !! field = Some node →
  ((RowAccessor_seek this rowId ≫= λ r, RowAccessor_isNull r field) h).1
    = Ok (dn_isNull node rowId).
Proof.
  intros Hlive Hlt Hfield.
  rewrite (seek_then_in_range _ _ _ _ _ Hlive Hlt).
  unfold RowAccessor_isNull.
  rewrite (bind_load _ _ _ _ (lookup_insert_eq h this _)). simpl.
  by rewrite Hfield.
Qed.

(** X4: after [seek(rowId)], a scalar reader of a field the pod does not
    decode at that row (no pod, or the field is not encoded) returns the
    value the field's node holds at [rowId]. *)
Theorem seek_then_read_node (T : CType) this rowId field h self node :
  h !! this = Some self →
  rowId < rows_ (batch_ self) →
  pod_value T (repositioned self rowId) field = None →
  dnMap_ self !! field = Some node →
  ((RowAccessor_seek this rowId ≫= λ r, READ_TYPE_BY_FIELD T r field) h).1
    = Ok (dn_read node T rowId).
Proof.
  intros Hlive Hlt Hpod Hfield.
  rewrite (seek_then_in_range _ _ _ _ _ Hlive Hlt).
  rewrite (read_unpacked _ _ _ _ _ (lookup_insert_eq h this _) Hpod).
  by rewrite (DataNode_path_found _ _ _ _ _ node (lookup_insert_eq h this _)).
Qed.

(** X5: after [seek(rowId)], a scalar reader of a field the pod decodes
    returns the value decoded from the [bessBits_] bits read at bit
    [rowId * bessBits_] of the buffer, whether or not the field map knows
    the field: the map is not consulted and no lookup error can arise. *)
Theorem seek_then_read_packed (T : CType) this rowId field h self pod v :
  h !! this = Some self →
  rowId < rows_ (batch_ self) →
  pod_ (batch_ self) = make_unique pod →
  bess_value pod T field (spaces_ (batch_ self))
    (readBits (bess_ (batch_ self))
              (size_mul rowId (bessBits_ (batch_ self)))
              (bessBits_ (batch_ self))) = Some v →
  ((RowAccessor_seek this rowId ≫= λ r, READ_TYPE_BY_FIELD T r field) h).1 = Ok v.
Proof.
  intros Hlive Hlt Hpod Hval.
  rewrite (seek_then_in_range _ _ _ _ _ Hlive Hlt).
  rewrite (read_packed _ _ _ _ _ v (lookup_insert_eq h this _)); [done|].
  unfold pod_value, repositioned. simpl. by rewrite Hpod.
Qed.

(** X6: for a name the field map does not hold, a scalar reader that finds
    no packed value and [readList] both throw [std::out_of_range] (not the
    N_ENSURE error [isNull] reports) and leave the store as it was. *)
Theorem unknown_field_out_of_range (T : CType) this field h self :
  h !! this = Some self →
  dnMap_ self !! field = None →
  (pod_value T self field = None →
   READ_TYPE_BY_FIELD T this field h = (Throw std_out_of_range, h)) ∧
  RowAccessor_readList this field h = (Throw std_out_of_range, h) ∧
  std_out_of_range ≠ FieldNotFound field.
Proof.
  intros Hlive Hfield. split; [|split].
  - intros Hpod. rewrite (read_unpacked _ _ _ _ _ Hlive Hpod).
    unfold DataNode_path_read. rewrite (bind_load _ _ _ _ Hlive).
    unfold dnMap_at. by rewrite Hfield.
  - unfold RowAccessor_readList. rewrite (bind_load _ _ _ _ Hlive).
    unfold dnMap_at. by rewrite Hfield.
  - discriminate.
Qed.

(** X7: the list handed out for row [rowId] of an array field has the
    count [offsetSize(rowId)] reports, and its entry [index] below that
    count is the child node's value at [offset + index]. *)
Theorem seek_readList_entry (T : CType) this rowId field h self listNode child index :
  h !! this = Some self →
  rowId < rows_ (batch_ self) →
  dnMap_ self !! field = Some listNode →
  dn_children listNode = [child] →
  index < (dn_offsetSize listNode rowId).2 →
  (dn_offsetSize listNode rowId).1 + (dn_offsetSize listNode rowId).2 ≤ size_t_max →
  ∃ la,
    ((RowAccessor_seek this rowId ≫= λ r, RowAccessor_readList r field) h).1
      = Ok (make_unique la) ∧
    items_ la = (dn_offsetSize listNode rowId).2 ∧
    READ_TYPE_BY_ENTRY T la index
      = dn_read child T ((dn_offsetSize listNode rowId).1 + index).
Proof.
  intros Hlive Hlt Hfield Hchild Hidx Hfit.
  rewrite (seek_then_in_range _ _ _ _ _ Hlive Hlt).
  unfold RowAccessor_readList.
  rewrite (bind_load _ _ _ _ (lookup_insert_eq h this _)).
  unfold dnMap_at. simpl. rewrite Hfield.
  unfold mbind, M_bind, mret, M_ret, lift, childAt. rewrite Hchild. simpl.
  eexists. split; [reflexivity|]. split; [reflexivity|].
  unfold READ_TYPE_BY_ENTRY. simpl. rewrite size_add_exact; [done|lia].
Qed.

(** X9: with a pod configured and a buffer of [rows_ * bessBits_] bits that
    the word can address, [seek(rowId)] caches the bits read at the exact
    position [rowId * bessBits_], and that window ends inside the buffer. *)
Theorem seek_window_in_buffer this rowId h self pod :
  h !! this = Some self →
  pod_ (batch_ self) = make_unique pod →
  rowId < rows_ (batch_ self) →
  rows_ (batch_ self) * bessBits_ (batch_ self) ≤ size_t_max →
  ∃ self',
    (RowAccessor_seek this rowId h).2 !! this = Some self' ∧
    bessValue_ self' =
      readBits (bess_ (batch_ self)) (rowId * bessBits_ (batch_ self))
               (bessBits_ (batch_ self)) ∧
    rowId * bessBits_ (batch_ self) + bessBits_ (batch_ self)
      ≤ rows_ (batch_ self) * bessBits_ (batch_ self).
Proof.
  intros Hlive Hpod Hlt Hfit.
  rewrite (seek_in_range _ _ _ _ Hlive Hlt). simpl.
  exists (repositioned self rowId). split; [apply lookup_insert_eq|].
  assert (Hend : rowId * bessBits_ (batch_ self) + bessBits_ (batch_ self)
                 ≤ rows_ (batch_ self) * bessBits_ (batch_ self)) by nia.
  split; [|exact Hend].
  unfold repositioned. simpl. rewrite Hpod.
  destruct (N.eq_dec (bessBits_ (batch_ self)) 0) as [Hzero|Hpos].
  - rewrite Hzero. unfold size_mul. by rewrite N.mul_0_r.
  - rewrite size_mul_exact; [done|lia].
Qed.

End AccessorCompositions.

(** X8: for a list whose window starts at child row 0, the null check of an
    entry does look at child row [offset + index]. *)
Theorem ListAccessor_isNull_at_offset_zero (la : ListAccessor) (index : N) :
  offset_ la = 0 →
  index < size_t_max →
  ListAccessor_isNull la index = dn_isNull (node_ la) (size_add (offset_ la) index).
Proof.
  intros Hoff Hidx. unfold ListAccessor_isNull.
  rewrite Hoff, size_add_exact; [done|lia].
Qed.

(** * Further properties of the Type tree *)

(** X10: [kind()] answers the kind the type was instantiated with, for
    every kind that has traits; a fixed-width kind is always primitive, so
    ARRAY, MAP and STRUCT are never fixed-width, and a width is 0, 1, 2, 4
    or 8 bytes. *)
Theorem TypeTraits_coherent (KIND : Kind) :
  (KIND ≠ INVALID → Type_kind KIND = Some KIND) ∧
  (Type_isFixedWidth KIND = Some true → Type_isPrimitive KIND = Some true) ∧
  (Type_isPrimitive KIND = Some false → Type_width KIND = Some 0) ∧
  (∀ w, Type_width KIND = Some w → w ∈ [0; 1; 2; 4; 8]).
Proof.
  split; [|split; [|split]].
  - by destruct KIND.
  - by destruct KIND.
  - by destruct KIND.
  - intros w Hw. apply list_elem_of_In.
    destruct KIND; vm_compute in Hw; try discriminate Hw;
      injection Hw as <-; simpl; auto 10.
Qed.

(** X11: the name [type()] reports identifies the kind: two kinds with
    traits and the same name are the same kind. *)
Theorem Type_type_injective (k1 k2 : Kind) :
  is_Some (Type_type k1) →
  Type_type k1 = Type_type k2 →
  k1 = k2.
Proof.
  intros [n1 Hn1] Heq. destruct k1; try discriminate Hn1; destruct k2; by simplify_eq/=.
Qed.

Lemma TypeNode_addChildren (t : TypeNode) (fields : list TypeNode) :
  addChildren t fields = mkTypeNode (kind t) (name_ t) (children t ++ fields).
Proof.
  unfold addChildren. revert t. induction fields as [|f fields IH]; intros t; simpl.
  - rewrite app_nil_r. by destruct t.
  - rewrite IH. simpl. by rewrite <- app_assoc.
Qed.

(** X12: [create] for a struct returns a node only when the tree reports
    exactly as many children as fields were supplied, and throws otherwise;
    with children kept as an ordered sequence it succeeds for every field
    list, the empty one included, and the children are the fields in
    argument order. *)
Theorem Type_create_struct_spec :
  (∀ (T : Type) (ops : Tree T) (name : string) (fields : list T) (t : T),
     Type_create_struct name fields = Ok t →
     t = addChildren (TType STRUCT name) fields ∧
     tree_size t = N.of_nat (length fields)) ∧
  (∀ (T : Type) (ops : Tree T) (name : string) (fields : list T),
     tree_size (addChildren (TType STRUCT name) fields) ≠ N.of_nat (length fields) →
     Type_create_struct name fields = Throw (NException "all children added")) ∧
  (∀ (name : string) (fields : list TypeNode),
     Type_create_struct name fields = Ok (mkTypeNode STRUCT name fields)).
Proof.
  split; [|split].
  - intros T ops name fields t. unfold Type_create_struct.
    destruct (N.eqb_spec (tree_size (addChildren (TType STRUCT name) fields))
                         (N.of_nat (length fields))) as [Hsize|Hsize]; [|discriminate].
    by intros [= <-].
  - intros T ops name fields Hsize. unfold Type_create_struct.
    apply N.eqb_neq in Hsize. by rewrite Hsize.
  - intros name fields. unfold Type_create_struct.
    rewrite TypeNode_addChildren. simpl. by rewrite N.eqb_refl.
Qed.

(** * Properties of the connection pool *)

Lemma fresh_channel_new (heap : gmap loc Channel) : heap !! fresh (dom heap) = None.
Proof. apply not_elem_of_dom. apply is_fresh. Qed.

(** The two ways a call can go. *)
Lemma connection_cases GetState addr s :
  (∃ channel, connections_ s !! addr = Some channel ∧
              GetState channel true ≠ GRPC_CHANNEL_SHUTDOWN ∧
              ConnectionPool_connection GetState addr s = (channel, s)) ∨
  ((∀ channel, connections_ s !! addr = Some channel →
               GetState channel true = GRPC_CHANNEL_SHUTDOWN) ∧
   ConnectionPool_connection GetState addr s =
     (fresh (dom (channels s)),
      {| channels := <[fresh (dom (channels s)) := dialed addr]> (channels s);
         connections_ := <[addr := fresh (dom (channels s))]> (connections_ s) |})).
Proof.
  unfold ConnectionPool_connection.
  destruct (connections_ s !! addr) as [channel|] eqn:Hloc.
  - case_bool_decide as Hstate.
    + left. by exists channel.
    + right. split; [|done]. intros c [= <-].
      by destruct (decide (GetState channel true = GRPC_CHANNEL_SHUTDOWN)).
  - right. split; [|done]. intros c Habs. discriminate Habs.
Qed.

(** X13: after [connection(addr)] the pool maps [addr] to the channel it
    returned, every other address keeps its entry, and the set of pooled
    addresses has grown by at most [addr]: the pool never forgets one. *)
Theorem connection_registers GetState addr s :
  let r := ConnectionPool_connection GetState addr s in
  connections_ r.2 !! addr = Some r.1 ∧
  (∀ addr', addr' ≠ addr → connections_ r.2 !! addr' = connections_ s !! addr') ∧
  dom (connections_ r.2) = {[addr]} ∪ dom (connections_ s).
Proof.
  destruct (connection_cases GetState addr s)
    as [(channel & Hloc & Hstate & ->)|[Hdead ->]]; simpl.
  - split; [done|]. split; [done|].
    symmetry. apply subseteq_union_1_L, singleton_subseteq_l.
    by apply (elem_of_dom_2 _ _ channel).
  - split; [apply lookup_insert_eq|].
    split; [intros addr' Hne; by rewrite lookup_insert_ne|].
    apply dom_insert_L.
Qed.

(** X14: a channel [connection] returns is either one it created during the
    call or the pooled channel of [addr], which it then saw in a state other
    than SHUTDOWN; a channel seen SHUTDOWN is never handed out. *)
Theorem connection_never_returns_dead GetState addr s :
  let r := ConnectionPool_connection GetState addr s in
  (channels s !! r.1 = None ∧ channels r.2 !! r.1 = Some (dialed addr)) ∨
  (connections_ s !! addr = Some r.1 ∧
   GetState r.1 true ≠ GRPC_CHANNEL_SHUTDOWN ∧ r.2 = s).
Proof.
  destruct (connection_cases GetState addr s)
    as [(channel & Hloc & Hstate & ->)|[Hdead ->]]; simpl.
  - by right.
  - left. split; [apply fresh_channel_new|apply lookup_insert_eq].
Qed.

(** X15: a pooled channel seen SHUTDOWN is replaced: the call returns a
    different, newly created channel dialed for [addr], and the pool now
    maps [addr] to it. *)
Theorem connection_replaces_dead GetState addr s channel :
  connections_ s !! addr = Some channel →
  is_Some (channels s !! channel) →
  GetState channel true = GRPC_CHANNEL_SHUTDOWN →
  let r := ConnectionPool_connection GetState addr s in
  r.1 ≠ channel ∧
  channels s !! r.1 = None ∧
  channels r.2 !! r.1 = Some (dialed addr) ∧
  connections_ r.2 !! addr = Some r.1.
Proof.
  intros Hloc [ch Hch] Hstate.
  destruct (connection_cases GetState addr s)
    as [(channel' & Hloc' & Hstate' & ->)|[Hdead ->]]; simpl.
  - congruence.
  - split; [|split; [apply fresh_channel_new|split; apply lookup_insert_eq]].
    intros Heq. pose proof (fresh_channel_new (channels s)) as Hnew.
    rewrite Heq in Hnew. congruence.
Qed.

(** X16: asking again for an address whose channel is not SHUTDOWN returns
    the channel of the previous call, leaves the pool's address map as it
    was and creates no channel. *)
Theorem connection_reuses GetState GetState' addr s :
  let r := ConnectionPool_connection GetState addr s in
  GetState' r.1 true ≠ GRPC_CHANNEL_SHUTDOWN →
  let r' := ConnectionPool_connection GetState' addr r.2 in
  r'.1 = r.1 ∧
  connections_ r'.2 = connections_ r.2 ∧
  (∀ c, is_Some (channels r'.2 !! c) → is_Some (channels r.2 !! c)).
Proof.
  intros r Hstate.
  assert (Hreg : connections_ r.2 !! addr = Some r.1).
  { subst r. destruct (connection_cases GetState addr s)
      as [(channel & Hloc & _ & ->)|[_ ->]]; simpl; [done|apply lookup_insert_eq]. }
  unfold ConnectionPool_connection at 1. rewrite Hreg.
  by rewrite bool_decide_eq_true_2.
Qed.

Lemma connection_wf GetState addr s :
  pool_wf s → pool_wf (ConnectionPool_connection GetState addr s).2.
Proof.
  intros Hwf.
  destruct (connection_cases GetState addr s)
    as [(channel & Hloc & Hstate & ->)|[Hdead ->]]; simpl; [done|].
  intros addr' c. simpl. destruct (decide (addr' = addr)) as [->|Hne].
  - rewrite lookup_insert_eq. intros [= <-]. apply lookup_insert_eq.
  - rewrite lookup_insert_ne; [|done]. intros Hc.
    pose proof (Hwf addr' c Hc) as Hch.
    rewrite lookup_insert_ne; [done|].
    intros Heq. pose proof (fresh_channel_new (channels s)) as Hnew.
    rewrite Heq in Hnew. congruence.
Qed.

Lemma connection_dialed GetState addr s :
  pool_wf s →
  channels (ConnectionPool_connection GetState addr s).2
    !! (ConnectionPool_connection GetState addr s).1 = Some (dialed addr).
Proof.
  intros Hwf.
  destruct (connection_cases GetState addr s)
    as [(channel & Hloc & Hstate & ->)|[Hdead ->]]; simpl.
  - by apply Hwf.
  - apply lookup_insert_eq.
Qed.

Lemma connection_calls_keep calls s c ch :
  channels s !! c = Some ch → channels (connection_calls calls s).2 !! c = Some ch.
Proof.
  revert s. induction calls as [|[GetState addr] calls IH]; intros s Hc; simpl; [done|].
  destruct (ConnectionPool_connection GetState addr s) as [channel s1] eqn:Hcall.
  specialize (IH s1). destruct (connection_calls calls s1) as [handed s2]. simpl in *.
  apply IH.
  destruct (connection_cases GetState addr s)
    as [(channel' & Hloc & Hstate & Heq)|[Hdead Heq]];
    rewrite Heq in Hcall; injection Hcall as <- <-; simpl; [done|].
  rewrite lookup_insert_ne; [done|].
  intros Heq'. pose proof (fresh_channel_new (channels s)) as Hnew.
  rewrite Heq' in Hnew. congruence.
Qed.

(** X18: across any sequence of calls on a pool whose entries each point to
    a channel dialed for their own address (an empty pool is one), that
    stays true, and every channel handed out is, in the final state, a
    channel dialed for the address it was asked for: insecure credentials,
    unlimited receive size. *)
Theorem connection_calls_dialed calls s :
  pool_wf s →
  pool_wf (connection_calls calls s).2 ∧
  Forall2 (λ call channel,
             channels (connection_calls calls s).2 !! channel = Some (dialed call.2))
          calls (connection_calls calls s).1.
Proof.
  revert s. induction calls as [|[GetState addr] calls IH]; intros s Hwf; simpl.
  - split; [done|constructor].
  - pose proof (connection_wf GetState addr s Hwf) as Hwf1.
    pose proof (connection_dialed GetState addr s Hwf) as Hdial.
    destruct (ConnectionPool_connection GetState addr s) as [channel s1].
    simpl in Hwf1, Hdial.
    destruct (IH s1 Hwf1) as [Hwf2 Hall].
    pose proof (connection_calls_keep calls s1 channel _ Hdial) as Hkeep.
    destruct (connection_calls calls s1) as [handed s2]. simpl in *.
    split; [done|]. by constructor.
Qed.

(** ** Instances on the fixtures *)

Lemma empty_pool_wf : pool_wf empty_pool.
Proof. intros addr channel Habs. discriminate Habs. Qed.

Lemma RowAccessor_seek_rebinds_witness :
  (RowAccessor_seek 1%positive 0 ≫= λ r, RowAccessor_seek r 2) scenario_store
    = RowAccessor_seek 1%positive 2 scenario_store.
Proof.
  apply (RowAccessor_seek_rebinds 1%positive 0 2 scenario_store scenario_accessor eq_refl);
    reflexivity.
Defined.

Lemma RowAccessor_seek_frame_witness :
  (RowAccessor_seek 1%positive 2 two_accessor_store).2 !! 2%positive
    = two_accessor_store !! 2%positive ∧
  ∃ self', (RowAccessor_seek 1%positive 2 two_accessor_store).2 !! 1%positive = Some self' ∧
           batch_ self' = scenario_batch ∧ dnMap_ self' = scenario_fields.
Proof.
  split.
  - apply (proj1 (RowAccessor_seek_frame 1%positive 2 two_accessor_store) 2%positive).
    discriminate.
  - apply (proj2 (proj2 (RowAccessor_seek_frame 1%positive 2 two_accessor_store))
             scenario_accessor).
    reflexivity.
Defined.

Lemma seek_then_isNull_witness :
  ((RowAccessor_seek 1%positive 2 ≫= λ r, RowAccessor_isNull r "a") scenario_store).1
    = Ok true.
Proof.
  apply (seek_then_isNull 1%positive 2 "a" scenario_store scenario_accessor column_a eq_refl);
    reflexivity.
Defined.

Lemma seek_then_read_node_witness :
  ((RowAccessor_seek 1%positive 1 ≫= λ r, READ_TYPE_BY_FIELD c_int32 r "a") scenario_store).1
    = Ok 20%Z.
Proof.
  apply (seek_then_read_node c_int32 1%positive 1 "a" scenario_store scenario_accessor
           column_a eq_refl); reflexivity.
Defined.

Lemma seek_then_read_packed_witness :
  ((RowAccessor_seek 1%positive 1 ≫= λ r, READ_TYPE_BY_FIELD c_int32 r "a")
     (packed_store faithful_buffer)).1 = Ok 20%Z.
Proof.
  apply (seek_then_read_packed c_int32 1%positive 1 "a" (packed_store faithful_buffer)
           (packed_accessor faithful_buffer) pod_a 20%Z eq_refl); reflexivity.
Defined.

Lemma unknown_field_out_of_range_witness :
  READ_TYPE_BY_FIELD c_int32 1%positive "c" scenario_store
    = (Throw std_out_of_range, scenario_store) ∧
  RowAccessor_readList 1%positive "c" scenario_store
    = (Throw std_out_of_range, scenario_store).
Proof.
  split.
  - apply (proj1 (unknown_field_out_of_range c_int32 1%positive "c" scenario_store
                    scenario_accessor eq_refl eq_refl)).
    reflexivity.
  - apply (proj1 (proj2 (unknown_field_out_of_range c_int32 1%positive "c" scenario_store
                           scenario_accessor eq_refl eq_refl))).
Defined.

Lemma seek_readList_entry_witness :
  ∃ la,
    ((RowAccessor_seek 1%positive 0 ≫= λ r, RowAccessor_readList r "b") scenario_store).1
      = Ok (make_unique la) ∧
    items_ la = 2 ∧
    READ_TYPE_BY_ENTRY c_int32 la 1 = dn_read items_b c_int32 (0 + 1).
Proof.
  apply (seek_readList_entry c_int32 1%positive 0 "b" scenario_store scenario_accessor
           column_b items_b 1 eq_refl); try reflexivity.
  vm_compute. discriminate.
Defined.

Lemma seek_window_in_buffer_witness :
  ∃ self',
    (RowAccessor_seek 1%positive 2 (packed_store faithful_buffer)).2 !! 1%positive
      = Some self' ∧
    bessValue_ self' = readBits (buffer_slice faithful_buffer) (2 * 32) 32 ∧
    2 * 32 + 32 ≤ 3 * 32.
Proof.
  apply (seek_window_in_buffer 1%positive 2 (packed_store faithful_buffer)
           (packed_accessor faithful_buffer) pod_a eq_refl eq_refl).
  - reflexivity.
  - vm_compute. discriminate.
Defined.

Lemma ListAccessor_isNull_at_offset_zero_witness :
  ListAccessor_isNull (mkListAccessor 0 2 items_null2) 1
    = dn_isNull items_null2 (size_add 0 1).
Proof.
  apply (ListAccessor_isNull_at_offset_zero (mkListAccessor 0 2 items_null2) 1);
    reflexivity.
Defined.

Lemma TypeTraits_coherent_witness :
  Type_kind BIGINT = Some BIGINT ∧
  Type_isPrimitive BIGINT = Some true ∧
  Type_width MAP = Some 0 ∧
  (8 : N) ∈ [0; 1; 2; 4; 8].
Proof.
  split; [|split; [|split]].
  - apply (proj1 (TypeTraits_coherent BIGINT)). discriminate.
  - apply (proj1 (proj2 (TypeTraits_coherent BIGINT))). reflexivity.
  - apply (proj1 (proj2 (proj2 (TypeTraits_coherent MAP)))). reflexivity.
  - apply (proj2 (proj2 (proj2 (TypeTraits_coherent BIGINT)))). reflexivity.
Defined.

Lemma Type_type_injective_witness :
  Type_type VARCHAR = Some "VARCHAR" ∧ VARCHAR = VARCHAR.
Proof.
  split; [reflexivity|].
  apply (Type_type_injective VARCHAR VARCHAR); [|reflexivity].
  exists "VARCHAR". reflexivity.
Defined.

Lemma Type_create_struct_spec_witness :
  Type_create_struct "row" [varchar_key; bigint_value]
    = Ok (mkTypeNode STRUCT "row" [varchar_key; bigint_value]) ∧
  @Type_create_struct TypeNode single_child_tree "row" [varchar_key; bigint_value]
    = Throw (NException "all children added").
Proof.
  split.
  - apply (proj2 (proj2 Type_create_struct_spec)).
  - apply (proj1 (proj2 Type_create_struct_spec) TypeNode single_child_tree).
    vm_compute. discriminate.
Defined.

Lemma connection_registers_witness :
  connections_ (ConnectionPool_connection (always GRPC_CHANNEL_READY) "n2:9199"
                  one_channel_pool).2 !! "n1:9199"
    = connections_ one_channel_pool !! "n1:9199".
Proof.
  apply (proj1 (proj2 (connection_registers (always GRPC_CHANNEL_READY) "n2:9199"
                         one_channel_pool)) "n1:9199").
  discriminate.
Defined.

Lemma connection_replaces_dead_witness :
  (ConnectionPool_connection (always GRPC_CHANNEL_SHUTDOWN) "n1:9199" one_channel_pool).1
    ≠ 1%positive.
Proof.
  apply (connection_replaces_dead (always GRPC_CHANNEL_SHUTDOWN) "n1:9199"
           one_channel_pool 1%positive).
  - reflexivity.
  - exists (dialed "n1:9199"). reflexivity.
  - reflexivity.
Defined.

Lemma connection_reuses_witness :
  (ConnectionPool_connection (always GRPC_CHANNEL_IDLE) "n1:9199" one_channel_pool).1
    = (ConnectionPool_connection (always GRPC_CHANNEL_READY) "n1:9199" empty_pool).1.
Proof.
  apply (connection_reuses (always GRPC_CHANNEL_READY) (always GRPC_CHANNEL_IDLE)
           "n1:9199" empty_pool).
  discriminate.
Defined.

Lemma connection_calls_dialed_witness :
  pool_wf (connection_calls
             [(always GRPC_CHANNEL_READY, "n1:9199"); (always GRPC_CHANNEL_SHUTDOWN, "n1:9199")]
             empty_pool).2.
Proof.
  apply (proj1 (connection_calls_dialed
                  [(always GRPC_CHANNEL_READY, "n1:9199");
                   (always GRPC_CHANNEL_SHUTDOWN, "n1:9199")]
                  empty_pool empty_pool_wf)).
Defined.
